(** * memory.lol: the [manage] binary (src/bin/manage.rs)

    A shallow embedding of the import and lookup commands of [manage]:
    the multi-date CSV importer ([Command::ImportMulti]), the session based
    importers ([Command::ImportJson], [Command::ImportMentions]) and the
    rendering of [Command::LookupId].

    Observation dates ([chrono::NaiveDate]) are represented by their day
    number relative to 1970-01-01; the order on [NaiveDate] is the order on
    these day numbers.  Strings are byte strings ([String.string] over
    [ascii]); Rust's [str] is UTF-8, and the separator [','] is a single byte
    that never occurs inside a multi-byte sequence, so splitting on it is
    splitting on that byte. *)

From Stdlib Require Import ZArith List String Ascii Bool Lia.
From Stdlib Require Import Sorting.Sorted Sorting.Permutation.
Import ListNotations.
Open Scope string_scope.
Open Scope list_scope.
Open Scope Z_scope.

(** ** Errors and outcomes *)

(** [enum Error] of manage.rs.  The payload of the wrapped library errors
    is kept as a string. *)
Inductive Error :=
| App (detail : string)
| Import (detail : string)
| Io
| Json
| LogInitialization
| InvalidImportLine (line : string).

(** A computation in [main] either returns a value, returns an [Err] through
    [?], or panics (an [unwrap] on [None] in a library call). *)
Inductive outcome (A : Type) :=
| Ok (a : A)
| Err (e : Error)
| Panic.
Arguments Ok {A} a.
Arguments Err {A} e.
Arguments Panic {A}.

(** ** [str::split(',')] *)

Definition comma : ascii := ",".

(** [line.split(',').collect::<Vec<_>>()]: always at least one field; the
    empty string gives [[""]]. *)
Fixpoint split_comma (s : string) : list string :=
  match s with
  | EmptyString => [EmptyString]
  | String c s' =>
      let rest := split_comma s' in
      if Ascii.eqb c comma then EmptyString :: rest
      else match rest with
           | [] => [String c EmptyString]
           | f :: fs => String c f :: fs
           end
  end.

(** ** [u64::from_str] and [i64::from_str] (radix 10) *)

Definition digit_val (c : ascii) : option Z :=
  let n := Z.of_nat (nat_of_ascii c) in
  if (48 <=? n) && (n <=? 57) then Some (n - 48) else None.

(** Accumulates the decimal digits; [None] on a non-digit. *)
Fixpoint parse_digits (s : string) (acc : Z) : option Z :=
  match s with
  | EmptyString => Some acc
  | String c s' =>
      match digit_val c with
      | Some d => parse_digits s' (acc * 10 + d)
      | None => None
      end
  end.

(** [from_str_radix]: empty input is an error; a leading ['+'] is skipped;
    a leading ['-'] is a sign only for signed types; a sign alone is an
    error; the digits must all be decimal and the value must be in
    [lo, hi].  The standard library checks for overflow digit by digit;
    since the accumulated magnitude only grows, that is the same as checking
    the final value. *)
Definition parse_int (signed : bool) (lo hi : Z) (s : string) : option Z :=
  match s with
  | EmptyString => None
  | String c rest =>
      let '(positive, digits) :=
        if Ascii.eqb c "+" then (true, rest)
        else if signed && Ascii.eqb c "-" then (false, rest)
        else (true, s) in
      match digits with
      | EmptyString => None
      | _ =>
          match parse_digits digits 0 with
          | Some n =>
              let v := if positive then n else - n in
              if (lo <=? v) && (v <=? hi) then Some v else None
          | None => None
          end
      end
  end.

Definition u64_max : Z := 2 ^ 64 - 1.
Definition i64_min : Z := - 2 ^ 63.
Definition i64_max : Z := 2 ^ 63 - 1.

(** [value.parse::<u64>().ok()] *)
Definition parse_u64 (s : string) : option Z := parse_int false 0 u64_max s.

(** [part.parse::<i64>().ok()] *)
Definition parse_i64 (s : string) : option Z := parse_int true i64_min i64_max s.

(** ** chrono: [Utc.timestamp(value, 0).naive_utc().date()] *)

(** Proleptic Gregorian calendar date (year, month, day) of a day number
    relative to 1970-01-01. *)
Definition civil_from_days (d : Z) : Z * Z * Z :=
  let z := d + 719468 in
  let era := z / 146097 in
  let doe := z - era * 146097 in
  let yoe := (doe - doe / 1460 + doe / 36524 - doe / 146096) / 365 in
  let y := yoe + era * 400 in
  let doy := doe - (365 * yoe + yoe / 4 - yoe / 100) in
  let mp := (5 * doy + 2) / 153 in
  let dd := doy - (153 * mp + 2) / 5 + 1 in
  let m := if mp <? 10 then mp + 3 else mp - 9 in
  (if m <=? 2 then y + 1 else y, m, dd).

(** chrono's [NaiveDate] covers the years [MIN_YEAR ..= MAX_YEAR]
    ([i32::MIN >> 13] and [i32::MAX >> 13]), the range of chrono 0.4.19,
    whose [Utc.timestamp] manage.rs calls; later 0.4 releases give up one
    year at each end. *)
Definition MIN_YEAR : Z := -262144.
Definition MAX_YEAR : Z := 262143.

(** [NaiveDateTime::from_timestamp_opt(secs, 0)] followed by [.date()]:
    the day is [secs.div_euclid(86_400)] (floor division, the divisor being
    positive); [None] when that day is outside [NaiveDate]'s range.
    [Utc.timestamp] unwraps this option and panics on [None]. *)
Definition timestamp_date (secs : Z) : option Z :=
  let days := secs / 86400 in
  let '(y, _, _) := civil_from_days days in
  if (MIN_YEAR <=? y) && (y <=? MAX_YEAR) then Some days else None.

(** ** [dates.sort(); dates.dedup();] *)

Fixpoint insert_date (x : Z) (l : list Z) : list Z :=
  match l with
  | [] => [x]
  | y :: l' => if x <=? y then x :: l else y :: insert_date x l'
  end.

(** [Vec::sort] (a stable sort; on dates every sort gives the same result). *)
Fixpoint sort_dates (l : list Z) : list Z :=
  match l with
  | [] => []
  | x :: l' => insert_date x (sort_dates l')
  end.

(** [Vec::dedup]: removes consecutive repeated elements. *)
Fixpoint dedup (l : list Z) : list Z :=
  match l with
  | [] => []
  | x :: l' =>
      match l' with
      | y :: _ => if x =? y then dedup l' else x :: dedup l'
      | [] => [x]
      end
  end.

(** ** One line of [Command::ImportMulti] *)

(** The loop [for part in &parts[2..]]: each field is parsed as [i64]
    ([Err(InvalidImportLine(line))] on failure), converted by
    [Utc.timestamp] (panic when out of range) and pushed onto [dates]. *)
Fixpoint collect_dates (line : string) (parts : list string) (dates : list Z)
  : outcome (list Z) :=
  match parts with
  | [] => Ok dates
  | part :: rest =>
      match parse_i64 part with
      | None => Err (InvalidImportLine line)
      | Some value =>
          match timestamp_date value with
          | None => Panic
          | Some d => collect_dates line rest (dates ++ [d])
          end
      end
  end.

(** Lines 22-41 of [main]: the arguments of the [db.insert_pair] call made
    for one line, or the error / panic that ends the command. *)
Definition process_line (line : string) : outcome (Z * string * list Z) :=
  let parts := split_comma line in
  match match nth_error parts 0 with
        | Some value => parse_u64 value
        | None => None
        end with
  | None => Err (InvalidImportLine line)
  | Some user_id =>
      match nth_error parts 1 with
      | None => Err (InvalidImportLine line)
      | Some screen_name =>
          match collect_dates line (skipn 2 parts) [] with
          | Ok dates => Ok (user_id, screen_name, dedup (sort_dates dates))
          | Err e => Err e
          | Panic => Panic
          end
      end
  end.

(** ** The store (the library's [Lookup]) *)

(** Modelled from the spec: the store of the [memory_lol] library
    ([Lookup::insert_pair], [Lookup::lookup_by_user_id]), which is not part
    of manage.rs.  The spec (4.5) makes it a durable map from
    (identifier, name) pairs to date sets, merged by union. *)
Definition key := (Z * string)%type.
Definition store := list (key * list Z).

Definition key_eqb (k1 k2 : key) : bool :=
  (fst k1 =? fst k2) && String.eqb (snd k1) (snd k2).

(** The [UpdateMode] of the library: one mode, [Range]. *)
Inductive UpdateMode := Range.

(** Modelled from the spec: "Range" merging unions the submitted dates
    into the stored set, which is kept ascending and without duplicates. *)
Definition merge_range (stored submitted : list Z) : list Z :=
  dedup (sort_dates (stored ++ submitted)).

(** The date set stored for a pair; the empty set when the pair is absent. *)
Fixpoint store_get (st : store) (k : key) : list Z :=
  match st with
  | [] => []
  | (k', v) :: st' => if key_eqb k' k then v else store_get st' k
  end.

(** Modelled from the spec: [insert_pair(identifier, name, dates)] merges
    [dates] into the set stored for the pair (4.5, "idempotent union"). *)
Fixpoint insert_pair (st : store) (user_id : Z) (screen_name : string)
    (dates : list Z) : store :=
  match st with
  | [] => [((user_id, screen_name), merge_range [] dates)]
  | (k, v) :: st' =>
      if key_eqb k (user_id, screen_name)
      then (k, merge_range v dates) :: st'
      else (k, v) :: insert_pair st' user_id screen_name dates
  end.

(** Modelled from the spec: [lookup_by_user_id(id)], every name stored for
    the identifier with its accumulated date set. *)
Definition lookup_by_user_id (st : store) (user_id : Z)
  : list (string * list Z) :=
  map (fun e => (snd (fst e), snd e))
      (filter (fun e => fst (fst e) =? user_id) st).

(** Modelled from the spec: the store's behaviour over one command.
    [fault k] is [Some detail] when the [k]-th [insert_pair] call of the
    command (counted from 0) fails with a store error (4.5, "Failure
    conditions"); the detail is what [main] wraps as [Error::App]. *)
Definition faults := nat -> option string.

(** The faults of the calls that follow the first [k] ones. *)
Definition shift (fault : faults) (k : nat) : faults := fun i => fault (k + i)%nat.

(** Modelled from the spec: one [insert_pair] call ([db.insert_pair(..)?]):
    it merges the dates (4.5) or fails with a store error.  A record is one
    unit of work of the store (4.4), so a failed call leaves the store as
    it was. *)
Definition insert_pair_call (fault : option string) (st : store)
    (user_id : Z) (screen_name : string) (dates : list Z)
  : store * outcome unit :=
  match fault with
  | None => (insert_pair st user_id screen_name dates, Ok tt)
  | Some detail => (st, Err (App detail))
  end.

(** ** [Command::ImportMulti] *)

(** An item of [stdin.lock().lines()]: the text of a line, or the I/O error
    the iterator yields when reading fails (for instance on input that is
    not UTF-8). *)
Inductive read_line :=
| Line (text : string)
| ReadFailure.

(** The loop over [stdin.lock().lines()]: [line?] ends the command on a
    read error; a line is processed and, when it is well formed, merged into
    the store at once through [db.insert_pair(..)?]; the first error or
    panic ends the command, the store keeping what was merged before.
    Returns the store and how the command ended. *)
Fixpoint import_multi (fault : faults) (lines : list read_line) (db : store)
  : store * outcome unit :=
  match lines with
  | [] => (db, Ok tt)
  | ReadFailure :: _ => (db, Err Io)
  | Line line :: rest =>
      match process_line line with
      | Ok (user_id, screen_name, dates) =>
          match insert_pair_call (fault O) db user_id screen_name dates with
          | (db', Ok _) => import_multi (shift fault 1) rest db'
          | other => other
          end
      | Err e => (db, Err e)
      | Panic => (db, Panic)
      end
  end.

(** ** [Command::ImportJson] and [Command::ImportMentions] *)

(** A session record: identifier, name and its canonical date set. *)
Definition record := (Z * string * list Z)%type.
Definition Session := list record.

(** Modelled from the spec: [Session::update(&db, mode)] submits the
    records in order to the store's merge-insert and returns their number;
    when the store call for a record fails, the error propagates at once,
    the records before it staying merged (4.4). *)
Fixpoint update (fault : faults) (session : Session) (db : store)
    (mode : UpdateMode) : store * outcome nat :=
  match session with
  | [] => (db, Ok O)
  | (user_id, screen_name, dates) :: rest =>
      match insert_pair_call (fault O) db user_id screen_name dates with
      | (db', Ok _) =>
          match update (shift fault 1) rest db' mode with
          | (db'', Ok count) => (db'', Ok (S count))
          | (db'', Err e) => (db'', Err e)
          | (db'', Panic) => (db'', Panic)
          end
      | (db', Err e) => (db', Err e)
      | (db', Panic) => (db', Panic)
      end
  end.

(** The dates submitted for one pair by a session. *)
Definition submitted (session : Session) (k : key) : list Z :=
  List.concat (map (fun r => match r with
                        | (user_id, screen_name, dates) =>
                            if key_eqb (user_id, screen_name) k then dates else []
                        end) session).

Section SessionLoad.

(** The format-specific decoding of one input line or entry (NDJSON for
    [load_json], CSV for [load_mentions]) into a raw tuple: identifier text,
    name and raw timestamps; [None] when the entry does not decode. *)
Variable decode : string -> option (string * string * list Z).

(** Modelled from the spec: the normalizer (4.3). *)
Definition normalize (raw : string * string * list Z) : option record :=
  match raw with
  | (id_text, name, stamps) =>
      match parse_u64 id_text with
      | None => None
      | Some user_id =>
          if String.eqb name "" then None
          else
            match fold_right (fun ts acc =>
                                match timestamp_date ts, acc with
                                | Some d, Some ds => Some (d :: ds)
                                | _, _ => None
                                end) (Some []) stamps with
            | Some ds => Some (user_id, name, dedup (sort_dates ds))
            | None => None
            end
      end
  end.

(** Modelled from the spec: [Session::load_json] / [Session::load_mentions]
    parse the whole input, failing on the first malformed entry (4.4). *)
Fixpoint load (entries : list string) : outcome Session :=
  match entries with
  | [] => Ok []
  | e :: rest =>
      match option_map normalize (decode e) with
      | Some (Some r) =>
          match load rest with
          | Ok s => Ok (r :: s)
          | Err err => Err err
          | Panic => Panic
          end
      | _ => Err (Import e)
      end
  end.

(** Lines 57-58 (and 71-72) of [main]: [Session::load_*(..)?] followed by
    [session.update(&db, UpdateMode::Range)?]. *)
Definition import_session (fault : faults) (entries : list string)
    (db : store) : store * outcome nat :=
  match load entries with
  | Ok session => update fault session db Range
  | Err e => (db, Err e)
  | Panic => (db, Panic)
  end.

End SessionLoad.

(** ** [Command::LookupId] rendering *)

Fixpoint digits_rev (fuel : nat) (n : Z) (acc : string) : string :=
  match fuel with
  | O => acc
  | S f =>
      let acc' := String (ascii_of_nat (48 + Z.to_nat (n mod 10))) acc in
      if n <? 10 then acc' else digits_rev f (n / 10) acc'
  end.

(** Decimal text of a non-negative integer (below [10 ^ 64]). *)
Definition dec (n : Z) : string := digits_rev 64 n "".

Fixpoint zeros (k : nat) : string :=
  match k with
  | O => ""
  | S k' => String "0" (zeros k')
  end.

(** Left padding with ['0'] to [width] characters. *)
Definition pad (width : nat) (s : string) : string :=
  (zeros (width - String.length s) ++ s)%string.

(** [impl Display for NaiveDate]: a year in [0 ..= 9999] as four digits,
    otherwise [{:+05}]; month and day as two digits each. *)
Definition date_to_string (d : Z) : string :=
  let '(y, m, dd) := civil_from_days d in
  let sign := if y <? 0 then "-" else "+" in
  let year := if (0 <=? y) && (y <=? 9999) then pad 4 (dec y)
              else (sign ++ pad 4 (dec (Z.abs y)))%string in
  (year ++ "-" ++ pad 2 (dec m) ++ "-" ++ pad 2 (dec dd))%string.

Fixpoint join (sep : string) (l : list string) : string :=
  match l with
  | [] => ""
  | [s] => s
  | s :: l' => (s ++ sep ++ join sep l')%string
  end.

(** Stable insertion by key, after the elements with an equal key. *)
Fixpoint insert_by_name (x : string * list Z) (l : list (string * list Z))
  : list (string * list Z) :=
  match l with
  | [] => [x]
  | y :: l' => if String.leb (fst y) (fst x) then y :: insert_by_name x l'
               else x :: l
  end.

(** [results.sort_by_key(|(screen_name, _)| screen_name.to_string())]: a
    stable sort on the name; [String]'s order is the byte-wise
    lexicographic order, which is [String.compare]. *)
Fixpoint sort_by_name (l : list (string * list Z)) : list (string * list Z) :=
  match l with
  | [] => []
  | x :: l' => insert_by_name x (sort_by_name l')
  end.

(** The [println!("{}: {}", screen_name, dates...join(", "))] of one row. *)
Definition render_row (row : string * list Z) : string :=
  (fst row ++ ": " ++ join ", " (map date_to_string (snd row)))%string.

(** Lines 77-91 of [main]: the printed lines. *)
Definition lookup_id (db : store) (id : Z) : list string :=
  map render_row (sort_by_name (lookup_by_user_id db id)).

(** ** Logging *)

(** [log::LevelFilter] ([LevelFilter::Error] is [LError] here); its [Ord]
    is the declaration order, from [Off] (the least verbose) to [Trace]. *)
Inductive LevelFilter := Off | LError | Warn | Info | Debug | Trace.

Definition level_rank (l : LevelFilter) : Z :=
  match l with
  | Off => 0 | LError => 1 | Warn => 2 | Info => 3 | Debug => 4 | Trace => 5
  end.

(** [select_log_level_filter]: the verbosity is the number of [-v] flags
    (an [i32]). *)
Definition select_log_level_filter (verbosity : Z) : LevelFilter :=
  if verbosity =? 0 then Off
  else if verbosity =? 1 then LError
  else if verbosity =? 2 then Warn
  else if verbosity =? 3 then Info
  else if verbosity =? 4 then Debug
  else Trace.

(** * Proofs *)

(** ** Sorting and deduplicating dates *)

Module DateSet.

Lemma insert_date_perm (x : Z) (l : list Z) :
  Permutation (insert_date x l) (x :: l).
Proof.
  induction l as [|y l IH]; simpl; [reflexivity|].
  destruct (x <=? y); [reflexivity|].
  rewrite IH. apply perm_swap.
Qed.

Lemma sort_dates_perm (l : list Z) : Permutation (sort_dates l) l.
Proof.
  induction l as [|x l IH]; simpl; [reflexivity|].
  rewrite insert_date_perm. now apply perm_skip.
Qed.

Lemma insert_date_hd (a x : Z) (l : list Z) :
  HdRel Z.le a l -> a <= x -> HdRel Z.le a (insert_date x l).
Proof.
  destruct l as [|y l]; simpl; intros H Hax.
  - constructor. exact Hax.
  - destruct (x <=? y); constructor; [exact Hax|]. now inversion H.
Qed.

Lemma insert_date_sorted (x : Z) (l : list Z) :
  Sorted Z.le l -> Sorted Z.le (insert_date x l).
Proof.
  induction l as [|y l IH]; simpl; intros Hs.
  - repeat constructor.
  - inversion Hs as [|? ? Hl Hhd]; subst.
    destruct (x <=? y) eqn:E.
    + apply Z.leb_le in E. constructor; [exact Hs|]. now constructor.
    + apply Z.leb_gt in E. constructor; [now apply IH|].
      apply insert_date_hd; [exact Hhd|lia].
Qed.

Lemma sort_dates_sorted (l : list Z) : Sorted Z.le (sort_dates l).
Proof.
  induction l as [|x l IH]; simpl; [constructor|].
  now apply insert_date_sorted.
Qed.

Lemma dedup_In (x : Z) (l : list Z) : In x (dedup l) <-> In x l.
Proof.
  induction l as [|a l IH]; simpl; [tauto|].
  destruct l as [|b l']; simpl in *; [tauto|].
  destruct (a =? b) eqn:E.
  - apply Z.eqb_eq in E. subst. rewrite IH. simpl. tauto.
  - simpl. rewrite IH. simpl. tauto.
Qed.

Lemma dedup_strict (l : list Z) :
  StronglySorted Z.le l -> StronglySorted Z.lt (dedup l).
Proof.
  induction l as [|a l IH]; simpl; intros Hs; [constructor|].
  inversion Hs as [|? ? Hl Ha]; subst.
  destruct l as [|b l']; [repeat constructor|].
  specialize (IH Hl).
  destruct (a =? b) eqn:E; [exact IH|].
  apply Z.eqb_neq in E.
  inversion Ha as [|? ? Hab Ha']; subst.
  inversion Hl as [|? ? Hl' Hb]; subst.
  constructor; [exact IH|].
  apply Forall_forall. intros z Hz.
  rewrite dedup_In in Hz. simpl in Hz. destruct Hz as [<-|Hz]; [lia|].
  rewrite Forall_forall in Hb. specialize (Hb z Hz). lia.
Qed.

(** The date set as [manage] and the store produce it. *)
Definition canon (l : list Z) : list Z := dedup (sort_dates l).

Lemma canon_strict (l : list Z) : StronglySorted Z.lt (canon l).
Proof.
  apply dedup_strict, Sorted_StronglySorted; [exact Z.le_trans|].
  apply sort_dates_sorted.
Qed.

Lemma canon_In (x : Z) (l : list Z) : In x (canon l) <-> In x l.
Proof.
  unfold canon. rewrite dedup_In.
  split; apply Permutation_in; [|symmetry]; apply sort_dates_perm.
Qed.

Lemma strict_NoDup (l : list Z) : StronglySorted Z.lt l -> NoDup l.
Proof.
  induction l as [|x l IH]; intros Hs; [constructor|].
  inversion Hs as [|? ? Hl Hx]; subst.
  constructor; [|now apply IH].
  intros Hin. rewrite Forall_forall in Hx. specialize (Hx x Hin). lia.
Qed.

(** Two strictly ascending lists with the same elements are equal. *)
Lemma strict_ext (a b : list Z) :
  StronglySorted Z.lt a -> StronglySorted Z.lt b ->
  (forall x, In x a <-> In x b) -> a = b.
Proof.
  revert b. induction a as [|x a IH]; intros [|y b] Ha Hb Hab.
  - reflexivity.
  - exfalso. apply (proj2 (Hab y)). now left.
  - exfalso. apply (proj1 (Hab x)). now left.
  - inversion Ha as [|? ? Ha' Hx]; subst.
    inversion Hb as [|? ? Hb' Hy]; subst.
    rewrite Forall_forall in Hx, Hy.
    assert (x = y) as <-.
    { destruct (proj1 (Hab x) (or_introl eq_refl)) as [|Hxb]; [congruence|].
      destruct (proj2 (Hab y) (or_introl eq_refl)) as [|Hya]; [congruence|].
      specialize (Hx y Hya). specialize (Hy x Hxb). lia. }
    f_equal. apply IH; [exact Ha'|exact Hb'|].
    intros z. split; intros Hz.
    + destruct (proj1 (Hab z) (or_intror Hz)) as [<-|]; [|assumption].
      specialize (Hx x Hz). lia.
    + destruct (proj2 (Hab z) (or_intror Hz)) as [<-|]; [|assumption].
      specialize (Hy x Hz). lia.
Qed.

Lemma canon_ext (a b : list Z) :
  (forall x, In x a <-> In x b) -> canon a = canon b.
Proof.
  intros H. apply strict_ext; try apply canon_strict.
  intros x. rewrite !canon_In. apply H.
Qed.

Lemma merge_range_canon (old new : list Z) :
  merge_range old new = canon (old ++ new).
Proof. reflexivity. Qed.

End DateSet.

(** ** The store *)

Module Store.
Import DateSet.

Lemma key_eqb_eq (k1 k2 : key) : key_eqb k1 k2 = true <-> k1 = k2.
Proof.
  destruct k1 as [i1 n1], k2 as [i2 n2]; unfold key_eqb; simpl.
  rewrite andb_true_iff, Z.eqb_eq, String.eqb_eq.
  split; [intros [-> ->]; reflexivity|intros H; inversion H; auto].
Qed.

Lemma key_eqb_sym (k1 k2 : key) : key_eqb k1 k2 = key_eqb k2 k1.
Proof.
  destruct (key_eqb k1 k2) eqn:E, (key_eqb k2 k1) eqn:F; auto.
  - apply key_eqb_eq in E. subst.
    rewrite (proj2 (key_eqb_eq k2 k2) eq_refl) in F. discriminate.
  - apply key_eqb_eq in F. subst.
    rewrite (proj2 (key_eqb_eq k1 k1) eq_refl) in E. discriminate.
Qed.

Lemma store_get_insert (st : store) (u : Z) (n : string) (ds : list Z) (k : key) :
  store_get (insert_pair st u n ds) k =
  if key_eqb (u, n) k then merge_range (store_get st (u, n)) ds
  else store_get st k.
Proof.
  induction st as [|[k' v] st IH]; simpl.
  - rewrite key_eqb_sym. reflexivity.
  - destruct (key_eqb k' (u, n)) eqn:E.
    + apply key_eqb_eq in E. subst k'. simpl.
      destruct (key_eqb (u, n) k) eqn:F; reflexivity.
    + simpl. rewrite IH.
      destruct (key_eqb (u, n) k) eqn:F; [|reflexivity].
      apply key_eqb_eq in F. subst k. rewrite E. reflexivity.
Qed.

Definition record_key (r : record) : key :=
  match r with (u, n, _) => (u, n) end.

Definition session_has (session : Session) (k : key) : bool :=
  existsb (fun r => key_eqb (record_key r) k) session.

Lemma session_has_In (session : Session) (k : key) :
  session_has session k = true <-> In k (map record_key session).
Proof.
  unfold session_has. rewrite existsb_exists, in_map_iff.
  split; intros [r [H1 H2]]; exists r; split; auto.
  - now apply key_eqb_eq.
  - now apply key_eqb_eq.
Qed.

Lemma submitted_absent (session : Session) (k : key) :
  session_has session k = false -> submitted session k = [].
Proof.
  induction session as [|[[u n] ds] s IH]; simpl; [reflexivity|].
  intros H. apply orb_false_iff in H as [H1 H2].
  unfold submitted in *. simpl. rewrite H1. simpl. now apply IH.
Qed.

(** The store after every record of a session has been merged. *)
Definition fold_insert (session : Session) (db : store) : store :=
  fold_left (fun st r => match r with
                         | (user_id, screen_name, dates) =>
                             insert_pair st user_id screen_name dates
                         end) session db.

Lemma fold_insert_get (session : Session) (st : store) (k : key) :
  store_get (fold_insert session st) k =
  if session_has session k
  then canon (store_get st k ++ submitted session k)
  else store_get st k.
Proof.
  unfold fold_insert. revert st.
  induction session as [|[[u n] ds] s IH]; intros st; simpl; [reflexivity|].
  rewrite IH, store_get_insert.
  destruct (key_eqb (u, n) k) eqn:E; simpl.
  - apply key_eqb_eq in E. subst k.
    assert (submitted (@cons record (u, n, ds) s) (u, n) =
            ds ++ submitted s (u, n)) as ->.
    { unfold submitted. simpl. rewrite (proj2 (key_eqb_eq _ _) eq_refl).
      reflexivity. }
    destruct (session_has s (u, n)) eqn:H.
    + unfold merge_range. apply canon_ext. intros x.
      fold (canon (store_get st (u, n) ++ ds)).
      rewrite !in_app_iff, canon_In, in_app_iff. tauto.
    + rewrite submitted_absent by exact H. rewrite !app_nil_r. reflexivity.
  - assert (submitted (@cons record (u, n, ds) s) k = submitted s k) as ->.
    { unfold submitted. simpl. rewrite E. reflexivity. }
    reflexivity.
Qed.

Lemma fold_insert_keeps (session : Session) (st : store) (k : key) (d : Z) :
  In d (store_get st k) -> In d (store_get (fold_insert session st) k).
Proof.
  intros Hd. rewrite fold_insert_get.
  destruct (session_has session k); [|exact Hd].
  apply canon_In, in_app_iff. now left.
Qed.

(** A run of [update] whose store calls all succeed merges the whole
    session and returns its length. *)
Lemma update_run (fault : faults) (session : Session) (db : store)
    (mode : UpdateMode) :
  (forall i, (i < List.length session)%nat -> fault i = None) ->
  update fault session db mode =
    (fold_insert session db, Ok (List.length session)).
Proof.
  revert fault db. unfold fold_insert.
  induction session as [|[[u n] ds] s IH]; intros fault db H; [reflexivity|].
  simpl. rewrite (H O) by (simpl; lia). simpl.
  rewrite IH; [reflexivity|].
  intros i Hi. unfold shift. apply H. simpl. lia.
Qed.

(** A run of [update] whose first failing store call is the [i]-th one
    leaves the store with the first [i] records merged and returns the
    store error. *)
Lemma update_first_fault (fault : faults) (session : Session) (db : store)
    (mode : UpdateMode) (i : nat) (detail : string) :
  (i < List.length session)%nat -> fault i = Some detail ->
  (forall j, (j < i)%nat -> fault j = None) ->
  update fault session db mode =
    (fold_insert (firstn i session) db, Err (App detail)).
Proof.
  revert fault db i. unfold fold_insert.
  induction session as [|[[u n] ds] s IH]; intros fault db i Hi Hf Hj;
    simpl in Hi; [lia|].
  destruct i as [|i].
  - simpl. rewrite Hf. reflexivity.
  - simpl. rewrite (Hj O) by lia. simpl.
    rewrite (IH (shift fault 1) _ i); [reflexivity|lia|exact Hf|].
    intros j Hji. unfold shift. apply Hj. simpl. lia.
Qed.

Lemma update_ok_inv (fault : faults) (session : Session) (db db1 : store)
    (mode : UpdateMode) (count : nat) :
  update fault session db mode = (db1, Ok count) ->
  forall i, (i < List.length session)%nat -> fault i = None.
Proof.
  revert fault db db1 count.
  induction session as [|[[u n] ds] s IH]; intros fault db db1 count H i Hi;
    simpl in Hi; [lia|].
  simpl in H. destruct (fault O) as [detail|] eqn:F0; [discriminate|].
  simpl in H.
  destruct (update (shift fault 1) s (insert_pair db u n ds) mode)
    as [db2 [c|e|]] eqn:E; try discriminate.
  destruct i as [|i]; [exact F0|].
  exact (IH (shift fault 1) _ _ c E i ltac:(lia)).
Qed.

(** Whatever the store does, a run of [update] leaves the store with some
    first records of the session merged. *)
Lemma update_prefix (fault : faults) (session : Session) (db : store)
    (mode : UpdateMode) :
  exists i, fst (update fault session db mode) =
            fold_insert (firstn i session) db.
Proof.
  revert fault db. unfold fold_insert.
  induction session as [|[[u n] ds] s IH]; intros fault db.
  - exists O. reflexivity.
  - simpl. destruct (fault O) as [detail|].
    + exists O. reflexivity.
    + simpl. destruct (IH (shift fault 1) (insert_pair db u n ds)) as [i Hi].
      exists (S i). simpl.
      destruct (update (shift fault 1) s (insert_pair db u n ds) mode)
        as [db2 [c|e|]]; exact Hi.
Qed.

(** The stores the import commands build: from the empty store, by
    merge-inserts. *)
Inductive reachable : store -> Prop :=
| reachable_empty : reachable []
| reachable_insert st u n ds :
    reachable st -> reachable (insert_pair st u n ds).

Definition store_wf (st : store) : Prop :=
  Forall (fun e => StronglySorted Z.lt (snd e)) st.

Lemma insert_pair_wf (st : store) (u : Z) (n : string) (ds : list Z) :
  store_wf st -> store_wf (insert_pair st u n ds).
Proof.
  unfold store_wf.
  induction st as [|[k v] st IH]; simpl; intros H.
  - constructor; [apply canon_strict|constructor].
  - inversion H; subst. destruct (key_eqb k (u, n)).
    + constructor; [apply canon_strict|assumption].
    + constructor; [assumption|now apply IH].
Qed.

Lemma reachable_wf (st : store) : reachable st -> store_wf st.
Proof.
  induction 1; [constructor|now apply insert_pair_wf].
Qed.

End Store.

(** ** Lines of the multi-date import *)

Module Lines.
Import DateSet.

Lemma timestamp_date_day (ts d : Z) :
  timestamp_date ts = Some d -> d * 86400 <= ts < (d + 1) * 86400.
Proof.
  unfold timestamp_date.
  destruct (civil_from_days (ts / 86400)) as [[y m] dd].
  destruct ((MIN_YEAR <=? y) && (y <=? MAX_YEAR)); intros H; inversion H; subst.
  pose proof (Z.div_mod ts 86400 ltac:(lia)).
  pose proof (Z.mod_pos_bound ts 86400 ltac:(lia)). lia.
Qed.

Definition good_stamp (f : string) : Prop :=
  exists ts d, parse_i64 f = Some ts /\ timestamp_date ts = Some d.

Lemma collect_dates_In (line : string) (parts : list string) (acc ds : list Z) :
  collect_dates line parts acc = Ok ds ->
  forall d, In d ds <->
    In d acc \/ exists f ts, In f parts /\ parse_i64 f = Some ts /\
                             timestamp_date ts = Some d.
Proof.
  revert acc. induction parts as [|f parts IH]; intros acc H d; simpl in H.
  - inversion H; subst. split; [tauto|].
    intros [Hd|[f [ts [[] _]]]]. exact Hd.
  - destruct (parse_i64 f) as [ts|] eqn:Hf; [|discriminate].
    destruct (timestamp_date ts) as [d'|] eqn:Ht; [|discriminate].
    rewrite (IH _ H d), in_app_iff. simpl. split.
    + intros [[Hd|[<-|[]]]|[g [ts' [Hg Hrest]]]]; [now left| |].
      * right. exists f, ts. auto.
      * right. exists g, ts'. simpl. auto.
    + intros [Hd|[g [ts' [[<-|Hg] [Hp Ht']]]]].
      * now left; left.
      * left; right; left. congruence.
      * right. exists g, ts'. auto.
Qed.

Lemma collect_dates_err (line : string) (parts : list string) (acc : list Z) e :
  collect_dates line parts acc = Err e -> e = InvalidImportLine line.
Proof.
  revert acc. induction parts as [|f parts IH]; intros acc H; simpl in H;
    [discriminate|].
  destruct (parse_i64 f) as [ts|]; [|congruence].
  destruct (timestamp_date ts); [|discriminate]. eapply IH; exact H.
Qed.

Lemma collect_dates_bad (line : string) (parts : list string) (acc : list Z) :
  (exists f, In f parts /\ parse_i64 f = None) ->
  forall ds, collect_dates line parts acc <> Ok ds.
Proof.
  revert acc. induction parts as [|f parts IH]; intros acc [g [Hg Hp]] ds;
    simpl in *; [contradiction|].
  destruct (parse_i64 f) as [ts|] eqn:Hf; [|discriminate].
  destruct Hg as [<-|Hg]; [congruence|].
  destruct (timestamp_date ts); [|discriminate].
  apply IH. eauto.
Qed.

Lemma collect_dates_first_bad (line : string) (before after : list string)
    (f : string) (acc : list Z) :
  Forall good_stamp before -> parse_i64 f = None ->
  collect_dates line (before ++ f :: after) acc = Err (InvalidImportLine line).
Proof.
  intros Hb Hf. revert acc. induction Hb as [|g before [ts [d [Hg Ht]]] Hb IH];
    intros acc; simpl.
  - rewrite Hf. reflexivity.
  - rewrite Hg, Ht. apply IH.
Qed.

Lemma collect_dates_first_panic (line : string) (before after : list string)
    (f : string) (ts : Z) (acc : list Z) :
  Forall good_stamp before -> parse_i64 f = Some ts -> timestamp_date ts = None ->
  collect_dates line (before ++ f :: after) acc = Panic.
Proof.
  intros Hb Hf Ht. revert acc.
  induction Hb as [|g before [ts' [d [Hg Ht']]] Hb IH]; intros acc; simpl.
  - rewrite Hf, Ht. reflexivity.
  - rewrite Hg, Ht'. apply IH.
Qed.

(** When every timestamp field converts, the dates do not depend on the
    line, which only appears in the error. *)
Lemma collect_dates_good (parts : list string) (acc : list Z) :
  Forall good_stamp parts ->
  exists ds, forall line, collect_dates line parts acc = Ok ds.
Proof.
  intros Hg. revert acc.
  induction Hg as [|g parts [ts [d [Hp Ht]]] Hg IH]; intros acc.
  - exists acc. reflexivity.
  - destruct (IH (acc ++ [d])) as [ds Hds]. exists ds. intros line.
    simpl. rewrite Hp, Ht. apply Hds.
Qed.

(** [process_line] on a line with an identifier and a name field. *)
Lemma process_line_split (line f0 f1 : string) (stamps : list string)
    (user_id : Z) :
  split_comma line = f0 :: f1 :: stamps -> parse_u64 f0 = Some user_id ->
  process_line line =
    match collect_dates line stamps [] with
    | Ok dates => Ok (user_id, f1, dedup (sort_dates dates))
    | Err e => Err e
    | Panic => Panic
    end.
Proof.
  intros Hs Hu. unfold process_line. rewrite Hs. simpl. rewrite Hu.
  reflexivity.
Qed.

Lemma import_multi_app (fault : faults) (pre rest : list read_line)
    (st : store) :
  import_multi fault (pre ++ rest) st =
  match import_multi fault pre st with
  | (st1, Ok _) => import_multi (shift fault (List.length pre)) rest st1
  | other => other
  end.
Proof.
  revert fault st. induction pre as [|[l|] pre IH]; intros fault st;
    [reflexivity| |reflexivity].
  simpl. destruct (process_line l) as [[[u n] ds]|e|];
    [|reflexivity|reflexivity].
  destruct (fault O); [reflexivity|]. simpl. apply IH.
Qed.

Lemma split_comma_nonempty (s : string) : split_comma s <> [].
Proof.
  destruct s as [|c s]; simpl; [discriminate|].
  destruct (Ascii.eqb c comma); [discriminate|].
  destruct (split_comma s); discriminate.
Qed.

Lemma parse_int_range (signed : bool) (lo hi : Z) (s : string) (v : Z) :
  parse_int signed lo hi s = Some v -> lo <= v <= hi.
Proof.
  unfold parse_int. destruct s as [|c rest]; [discriminate|].
  destruct (if Ascii.eqb c "+" then (true, rest)
            else if signed && Ascii.eqb c "-" then (false, rest)
            else (true, String c rest)) as [positive digits].
  destruct digits; [discriminate|].
  destruct (parse_digits _ 0) as [n|]; [|discriminate].
  destruct ((lo <=? (if positive then n else - n)) &&
            ((if positive then n else - n) <=? hi)) eqn:E; [|discriminate].
  intros H. inversion H; subst. apply andb_true_iff in E as [E1 E2]. lia.
Qed.

Lemma civil_year_bounds (d : Z) :
  let '(y, _, _) := civil_from_days d in
  (d + 719468) / 146097 * 400 <= y <= (d + 719468) / 146097 * 400 + 402.
Proof.
  unfold civil_from_days.
  set (z := d + 719468). set (era := z / 146097).
  set (doe := z - era * 146097).
  assert (Hdoe : 0 <= doe < 146097).
  { subst doe era. pose proof (Z.mod_pos_bound z 146097 ltac:(lia)).
    rewrite Z.mod_eq in H by lia. lia. }
  set (x := doe - doe / 1460 + doe / 36524 - doe / 146096).
  assert (Hx : 0 <= x <= 146096 + 100).
  { subst x.
    pose proof (Z.div_pos doe 1460 ltac:(lia) ltac:(lia)).
    pose proof (Z.div_pos doe 36524 ltac:(lia) ltac:(lia)).
    pose proof (Z.div_pos doe 146096 ltac:(lia) ltac:(lia)).
    pose proof (Z.mul_div_le doe 1460 ltac:(lia)).
    pose proof (Z.mul_div_le doe 36524 ltac:(lia)).
    pose proof (Z.mul_div_le doe 146096 ltac:(lia)).
    lia. }
  assert (Hyoe : 0 <= x / 365 <= 401).
  { split; [apply Z.div_pos; lia|apply Z.div_le_upper_bound; lia]. }
  cbv zeta.
  destruct (_ <? 10); destruct (_ <=? 2); lia.
Qed.

Lemma timestamp_date_small (ts : Z) :
  - 2 ^ 42 <= ts <= 2 ^ 42 -> timestamp_date ts = Some (ts / 86400).
Proof.
  intros Hts. unfold timestamp_date.
  pose proof (civil_year_bounds (ts / 86400)) as Hy.
  destruct (civil_from_days (ts / 86400)) as [[y m] dd].
  assert (Hd : -50903317 <= ts / 86400 <= 50903316).
  { pose proof (Z.div_mod ts 86400 ltac:(lia)).
    pose proof (Z.mod_pos_bound ts 86400 ltac:(lia)). lia. }
  assert (He : -345 <= (ts / 86400 + 719468) / 146097 <= 354).
  { pose proof (Z.div_mod (ts / 86400 + 719468) 146097 ltac:(lia)).
    pose proof (Z.mod_pos_bound (ts / 86400 + 719468) 146097 ltac:(lia)).
    lia. }
  assert (E : (MIN_YEAR <=? y) && (y <=? MAX_YEAR) = true).
  { unfold MIN_YEAR, MAX_YEAR. apply andb_true_iff. split; apply Z.leb_le; lia. }
  rewrite E. reflexivity.
Qed.

End Lines.

(** ** Rendering of [Command::LookupId] *)

Module Render.

Definition name_le (a b : string * list Z) : Prop := String.leb (fst a) (fst b) = true.

Lemma insert_by_name_perm x l : Permutation (insert_by_name x l) (x :: l).
Proof.
  induction l as [|y l IH]; simpl; [reflexivity|].
  destruct (String.leb (fst y) (fst x)); [|reflexivity].
  rewrite IH. apply perm_swap.
Qed.

Lemma sort_by_name_perm l : Permutation (sort_by_name l) l.
Proof.
  induction l as [|x l IH]; simpl; [reflexivity|].
  rewrite insert_by_name_perm. now apply perm_skip.
Qed.

Lemma insert_by_name_hd a x l :
  HdRel name_le a l -> name_le a x -> HdRel name_le a (insert_by_name x l).
Proof.
  destruct l as [|y l]; simpl; intros H Hax; [now constructor|].
  destruct (String.leb (fst y) (fst x)); constructor; [now inversion H|exact Hax].
Qed.

Lemma insert_by_name_sorted x l :
  Sorted name_le l -> Sorted name_le (insert_by_name x l).
Proof.
  induction l as [|y l IH]; simpl; intros Hs; [repeat constructor|].
  inversion Hs as [|? ? Hl Hhd]; subst.
  destruct (String.leb (fst y) (fst x)) eqn:E.
  - constructor; [now apply IH|]. apply insert_by_name_hd; [exact Hhd|exact E].
  - constructor; [exact Hs|]. constructor. unfold name_le.
    destruct (String.leb_total (fst x) (fst y)) as [H|H]; congruence.
Qed.

Lemma sort_by_name_sorted l : Sorted name_le (sort_by_name l).
Proof.
  induction l as [|x l IH]; simpl; [constructor|].
  now apply insert_by_name_sorted.
Qed.

Lemma lookup_wf (st : store) (id : Z) :
  Store.store_wf st ->
  Forall (fun r => StronglySorted Z.lt (snd r)) (lookup_by_user_id st id).
Proof.
  unfold Store.store_wf, lookup_by_user_id. intros H.
  apply Forall_map. rewrite Forall_forall in *. intros e He.
  apply filter_In in He. apply H. apply He.
Qed.

End Render.

(** * The claims *)

Import DateSet Store Lines Render.

(** ** Fail-fast ingestion *)

(** C1 (counterexample): the multi-date importer merges each line as soon
    as it is read, so when the second line ["x"] is malformed the command
    fails while the pair of the first line is already in the store. *)
Lemma import_multi_not_all_or_nothing :
  let '(db, result) := import_multi (fun _ => None) [Line "1,a,0"; Line "x"] [] in
  result = Err (InvalidImportLine "x") /\ store_get db (1, "a") = [0].
Proof. vm_compute. split; reflexivity. Qed.

(** C1 (amended): the session importers ([ImportJson], [ImportMentions])
    load the whole input before merging, so a failed load leaves the store
    untouched; after a successful load the records are merged in order, and
    when a store call fails its error propagates at once, the records
    before it staying merged and the later ones not merged.  The
    multi-date importer stops at the first malformed line, the store
    keeping exactly what the preceding lines merged and nothing from that
    line or later ones. *)
Theorem import_fail_fast (fault : faults) (pre post : list read_line)
    (line : string) (e : Error) (db : store) :
  process_line line = Err e ->
  import_multi fault (pre ++ Line line :: post) db =
    match import_multi fault pre db with
    | (db1, Ok _) => (db1, Err e)
    | other => other
    end /\
  forall decode entries db0,
    match load decode entries with
    | Ok session =>
        ((forall i, (i < List.length session)%nat -> fault i = None) ->
         import_session decode fault entries db0 =
           (fold_insert session db0, Ok (List.length session))) /\
        (forall i detail, (i < List.length session)%nat ->
           fault i = Some detail -> (forall j, (j < i)%nat -> fault j = None) ->
           import_session decode fault entries db0 =
             (fold_insert (firstn i session) db0, Err (App detail)))
    | Err e' => import_session decode fault entries db0 = (db0, Err e')
    | Panic => import_session decode fault entries db0 = (db0, Panic)
    end.
Proof.
  intros Hl. split.
  - rewrite import_multi_app. destruct (import_multi fault pre db) as [db1 [[]|e'|]];
      simpl; [rewrite Hl|..]; reflexivity.
  - intros decode entries db0. unfold import_session.
    destruct (load decode entries) as [session|e'|]; [|reflexivity|reflexivity].
    split.
    + apply update_run.
    + intros i detail Hi Hf Hj. apply update_first_fault; assumption.
Qed.

Lemma import_fail_fast_witness :
  process_line "x" = Err (InvalidImportLine "x") /\
  import_multi (fun _ => None) ([Line "1,a,0"] ++ Line "x" :: [Line "2,b,0"]) [] =
    match import_multi (fun _ => None) [Line "1,a,0"] [] with
    | (db1, Ok _) => (db1, Err (InvalidImportLine "x"))
    | other => other
    end.
Proof.
  split; [reflexivity|].
  exact (proj1 (import_fail_fast (fun _ => None) [Line "1,a,0"] [Line "2,b,0"]
                  "x" (InvalidImportLine "x") [] eq_refl)).
Defined.

(** ** The name field *)

(** C2 (counterexample): the line [42,,100] is accepted and gives the pair
    (42, "") with the date 1970-01-01. *)
Lemma empty_name_accepted :
  process_line "42,,100" = Ok (42, "", [0]) /\
  import_multi (fun _ => None) [Line "42,,100"] [] = ([((42, ""), [0])], Ok tt).
Proof. split; vm_compute; reflexivity. Qed.

(** C2 (amended): the name passed to [insert_pair] is the line's second
    comma-separated field verbatim, with no emptiness check: a line with a
    [u64] identifier and timestamps that convert is accepted whatever its
    name field, empty or not, and gives one [insert_pair] call with that
    field as the name and dates that do not depend on it; the only
    rejection tied to the name is a line with no second field. *)
Theorem name_field_verbatim (f0 : string) (stamps : list string)
    (user_id : Z) :
  parse_u64 f0 = Some user_id -> Forall good_stamp stamps ->
  (exists dates,
     forall line name, split_comma line = f0 :: name :: stamps ->
       process_line line = Ok (user_id, name, dates) /\
       forall fault db,
         import_multi fault [Line line] db =
           insert_pair_call (fault O) db user_id name dates) /\
  (forall line u name dates, process_line line = Ok (u, name, dates) ->
     nth_error (split_comma line) 1 = Some name) /\
  (forall line, nth_error (split_comma line) 1 = None ->
     process_line line = Err (InvalidImportLine line)).
Proof.
  intros Hu Hg. split; [|split].
  - destruct (collect_dates_good stamps [] Hg) as [ds Hds].
    exists (dedup (sort_dates ds)). intros line name Hs.
    assert (Hp : process_line line = Ok (user_id, name, dedup (sort_dates ds))).
    { rewrite (process_line_split line f0 name stamps user_id Hs Hu), Hds.
      reflexivity. }
    split; [exact Hp|]. intros fault db. simpl. rewrite Hp.
    destruct (fault O); reflexivity.
  - intros line u name dates. unfold process_line.
    destruct (match nth_error (split_comma line) 0 with
              | Some value => parse_u64 value | None => None end);
      [|discriminate].
    destruct (nth_error (split_comma line) 1) as [n|]; [|discriminate].
    destruct (collect_dates line (skipn 2 (split_comma line)) []);
      intros H; inversion H; subst. reflexivity.
  - intros line H1. unfold process_line. rewrite H1.
    destruct (match nth_error (split_comma line) 0 with
              | Some value => parse_u64 value | None => None end);
      reflexivity.
Qed.

Lemma name_field_verbatim_witness :
  exists dates, process_line "42,,100" = Ok (42, "", dates) /\
                process_line "42,bob,100" = Ok (42, "bob", dates).
Proof.
  assert (Hg : Forall good_stamp ["100"]).
  { constructor; [|constructor]. exists 100, 0. split; reflexivity. }
  destruct (name_field_verbatim "42" ["100"] 42 eq_refl Hg) as [[dates Hd] _].
  exists dates. split.
  - exact (proj1 (Hd "42,,100" "" eq_refl)).
  - exact (proj1 (Hd "42,bob,100" "bob" eq_refl)).
Defined.

(** ** The date set of a line *)

(** C3: the dates passed to [insert_pair] for a line are strictly ascending,
    hence sorted and without duplicates, whatever the order and repetition
    of the timestamps on the line. *)
Theorem multi_dates_sorted_dedup (line : string) (user_id : Z) (name : string)
    (dates : list Z) :
  process_line line = Ok (user_id, name, dates) ->
  StronglySorted Z.lt dates /\ NoDup dates.
Proof.
  unfold process_line.
  destruct (match nth_error (split_comma line) 0 with
            | Some value => parse_u64 value | None => None end); [|discriminate].
  destruct (nth_error (split_comma line) 1) as [n|]; [|discriminate].
  destruct (collect_dates line (skipn 2 (split_comma line)) []);
    intros H; inversion H; subst.
  split; [apply canon_strict|apply strict_NoDup, canon_strict].
Qed.

Lemma multi_dates_sorted_dedup_witness :
  process_line "42,alice,172800,0,86400,0" = Ok (42, "alice", [0; 1; 2]) /\
  StronglySorted Z.lt [0; 1; 2] /\ NoDup [0; 1; 2].
Proof.
  split; [vm_compute; reflexivity|].
  apply (multi_dates_sorted_dedup "42,alice,172800,0,86400,0" 42 "alice").
  vm_compute. reflexivity.
Defined.

(** ** Range updates *)

(** C4: after a run of [update] in [Range] mode, the date set of every
    submitted pair is the union of its previous set and the submitted
    dates, without duplicates; a second run with the same session changes
    no date set; no stored date is ever removed, by a completed run or by
    one that a store error ends early. *)
Theorem range_update_idempotent (fault : faults) (session : Session)
    (db db1 : store) (count : nat) :
  update fault session db Range = (db1, Ok count) ->
  (forall k, In k (map record_key session) ->
     NoDup (store_get db1 k) /\
     forall d, In d (store_get db1 k) <->
               In d (store_get db k) \/ In d (submitted session k)) /\
  (forall fault' db2 count', update fault' session db1 Range = (db2, Ok count') ->
     forall k, store_get db2 k = store_get db1 k) /\
  (forall k d, In d (store_get db k) -> In d (store_get db1 k)) /\
  (forall fault' k d, In d (store_get db k) ->
     In d (store_get (fst (update fault' session db Range)) k)).
Proof.
  intros H.
  assert (Hrun : forall f st st' c, update f session st Range = (st', Ok c) ->
                   st' = fold_insert session st).
  { intros f st st' c Hu.
    rewrite (update_run f session st Range (update_ok_inv _ _ _ _ _ _ Hu)) in Hu.
    congruence. }
  pose proof (Hrun _ _ _ _ H) as ->. split; [|split; [|split]].
  - intros k Hk. apply session_has_In in Hk.
    rewrite fold_insert_get, Hk. split.
    + apply strict_NoDup, canon_strict.
    + intros d. rewrite canon_In, in_app_iff. tauto.
  - intros fault' db2 count' H2 k. rewrite (Hrun _ _ _ _ H2), !fold_insert_get.
    destruct (session_has session k) eqn:Hk; [|reflexivity].
    apply canon_ext. intros d. rewrite in_app_iff, canon_In, in_app_iff. tauto.
  - intros k d Hd. apply fold_insert_keeps, Hd.
  - intros fault' k d Hd. destruct (update_prefix fault' session db Range) as [i ->].
    apply fold_insert_keeps, Hd.
Qed.

Lemma range_update_idempotent_witness :
  update (fun _ => None) [(1, "a", [0]); (1, "a", [2])] [((1, "a"), [1])] Range =
    ([((1, "a"), [0; 1; 2])], Ok 2%nat) /\
  forall k, In k (map record_key [(1, "a", [0]); (1, "a", [2])]) ->
    NoDup (store_get [((1, "a"), [0; 1; 2])] k) /\
    forall d, In d (store_get [((1, "a"), [0; 1; 2])] k) <->
              In d (store_get [((1, "a"), [1])] k) \/
              In d (submitted [(1, "a", [0]); (1, "a", [2])] k).
Proof.
  split; [vm_compute; reflexivity|].
  apply (range_update_idempotent (fun _ => None)
           [(1, "a", [0]); (1, "a", [2])] [((1, "a"), [1])]
           [((1, "a"), [0; 1; 2])] 2%nat).
  vm_compute. reflexivity.
Defined.

(** ** Timestamps and calendar dates *)

Lemma collect_dates_defined (line : string) (parts : list string)
    (acc ds : list Z) :
  collect_dates line parts acc = Ok ds ->
  forall f ts, In f parts -> parse_i64 f = Some ts ->
  timestamp_date ts = Some (ts / 86400).
Proof.
  revert acc. induction parts as [|g parts IH]; intros acc H f ts Hf Hp;
    simpl in *; [contradiction|].
  destruct (parse_i64 g) as [ts'|] eqn:Hg; [|discriminate].
  destruct (timestamp_date ts') as [d|] eqn:Ht; [|discriminate].
  destruct Hf as [<-|Hf]; [|eapply IH; eauto].
  rewrite Hp in Hg. inversion Hg; subst. rewrite Ht.
  unfold timestamp_date in Ht.
  destruct (civil_from_days (ts' / 86400)) as [[y m] dd].
  destruct ((MIN_YEAR <=? y) && (y <=? MAX_YEAR)); congruence.
Qed.

Lemma day_of_bounds (ts d : Z) :
  d * 86400 <= ts < (d + 1) * 86400 -> d = ts / 86400.
Proof.
  intros H. apply Z.div_unique with (r := ts - d * 86400); lia.
Qed.

(** C5: every date of a line is the UTC calendar day containing one of the
    line's timestamps (seconds since 1970-01-01), and every timestamp's day
    is among the dates; [42,alice,0,86400,172800] gives the pair
    (42, "alice") with the dates 1970-01-01, 1970-01-02 and 1970-01-03. *)
Theorem multi_dates_utc_days (line : string) (user_id : Z) (name : string)
    (dates : list Z) :
  process_line line = Ok (user_id, name, dates) ->
  (forall d, In d dates <->
     exists f ts, In f (skipn 2 (split_comma line)) /\ parse_i64 f = Some ts /\
                  d * 86400 <= ts < (d + 1) * 86400) /\
  process_line "42,alice,0,86400,172800" = Ok (42, "alice", [0; 1; 2]) /\
  map date_to_string [0; 1; 2] = ["1970-01-01"; "1970-01-02"; "1970-01-03"].
Proof.
  unfold process_line at 1.
  destruct (match nth_error (split_comma line) 0 with
            | Some value => parse_u64 value | None => None end); [|discriminate].
  destruct (nth_error (split_comma line) 1) as [n|]; [|discriminate].
  destruct (collect_dates line (skipn 2 (split_comma line)) []) as [ds| |]
    eqn:Hc; intros H; inversion H; subst.
  split; [|split; vm_compute; reflexivity].
  intros d. fold (canon ds). rewrite canon_In, (collect_dates_In _ _ _ _ Hc d). simpl.
  split.
  - intros [[]|[f [ts [Hf [Hp Ht]]]]].
    exists f, ts. repeat split; try assumption;
      apply timestamp_date_day in Ht; lia.
  - intros [f [ts [Hf [Hp Hb]]]]. right. exists f, ts.
    repeat split; try assumption.
    rewrite (collect_dates_defined _ _ _ _ Hc f ts Hf Hp).
    now rewrite (day_of_bounds ts d Hb).
Qed.

Lemma multi_dates_utc_days_witness :
  process_line "42,alice,0,86400,172800" = Ok (42, "alice", [0; 1; 2]) /\
  map date_to_string [0; 1; 2] = ["1970-01-01"; "1970-01-02"; "1970-01-03"].
Proof.
  apply (multi_dates_utc_days "42,alice,0,86400,172800" 42 "alice" [0; 1; 2]).
  vm_compute. reflexivity.
Defined.

(** ** Malformed timestamps *)

(** C6 (counterexample): when an earlier timestamp of the line is outside
    chrono's date range, [Utc.timestamp] panics on it before the
    non-integer field [x] is reached, so the line does not end in a
    malformed-input error. *)
Lemma bad_stamp_after_out_of_range :
  let line := "1,a,9223372036854775807,x" in
  process_line line = Panic /\ process_line line <> Err (InvalidImportLine line).
Proof. vm_compute. split; [reflexivity|discriminate]. Qed.

(** C6 (amended): a line with a timestamp field that does not parse as an
    [i64] is never merged: its processing does not succeed, the import
    stops at it with the store as the preceding lines left it, and when
    the timestamp fields before the first non-integer one are all valid
    the error is [InvalidImportLine] carrying the line. *)
Theorem bad_stamp_never_merged (fault : faults) (pre post : list read_line)
    (line : string) (db : store) :
  (exists f, In f (skipn 2 (split_comma line)) /\ parse_i64 f = None) ->
  (forall r, process_line line <> Ok r) /\
  fst (import_multi fault (pre ++ Line line :: post) db) =
    fst (import_multi fault pre db) /\
  snd (import_multi fault (pre ++ Line line :: post) db) <> Ok tt /\
  (forall before f after,
     skipn 2 (split_comma line) = before ++ f :: after ->
     Forall good_stamp before -> parse_i64 f = None ->
     process_line line = Err (InvalidImportLine line)).
Proof.
  intros Hbad.
  assert (Hno : forall r, process_line line <> Ok r).
  { intros r. unfold process_line.
    destruct (match nth_error (split_comma line) 0 with
              | Some value => parse_u64 value | None => None end);
      [|discriminate].
    destruct (nth_error (split_comma line) 1); [|discriminate].
    destruct (collect_dates line (skipn 2 (split_comma line)) []) as [ds| |]
      eqn:Hc; try discriminate.
    exfalso. exact (collect_dates_bad _ _ _ Hbad ds Hc). }
  assert (Herr : forall before f after,
             skipn 2 (split_comma line) = before ++ f :: after ->
             Forall good_stamp before -> parse_i64 f = None ->
             process_line line = Err (InvalidImportLine line)).
  { intros before f after Hs Hb Hf. unfold process_line.
    destruct (match nth_error (split_comma line) 0 with
              | Some value => parse_u64 value | None => None end);
      [|reflexivity].
    destruct (nth_error (split_comma line) 1) eqn:H1.
    - rewrite Hs, (collect_dates_first_bad line before after f [] Hb Hf).
      reflexivity.
    - exfalso. apply nth_error_None in H1.
      assert (List.length (skipn 2 (split_comma line)) <> 0%nat)
        by (rewrite Hs, length_app; simpl; lia).
      rewrite length_skipn in H. lia. }
  split; [exact Hno|].
  rewrite import_multi_app.
  destruct (import_multi fault pre db) as [db1 [[]|e|]]; simpl.
  - destruct (process_line line) as [r|e|] eqn:Hl;
      [exfalso; exact (Hno r eq_refl)|..]; simpl;
      (split; [reflexivity|split; [discriminate|exact Herr]]).
  - split; [reflexivity|split; [discriminate|exact Herr]].
  - split; [reflexivity|split; [discriminate|exact Herr]].
Qed.

Lemma bad_stamp_never_merged_witness :
  In "x" (skipn 2 (split_comma "2,b,0,x")) /\ parse_i64 "x" = None /\
  fst (import_multi (fun _ => None) ([Line "1,a,0"] ++ Line "2,b,0,x" :: []) []) =
    fst (import_multi (fun _ => None) [Line "1,a,0"] []).
Proof.
  split; [simpl; auto|]. split; [reflexivity|].
  apply (bad_stamp_never_merged (fun _ => None) [Line "1,a,0"] [] "2,b,0,x" []).
  exists "x". split; [simpl; auto|reflexivity].
Defined.

(** ** Short lines and bad identifiers *)

(** C7: a line with fewer than two comma-separated fields, or whose first
    field is not a [u64], fails with [InvalidImportLine] carrying the line
    itself. *)
Theorem short_or_bad_id_rejected (line : string) :
  (List.length (split_comma line) < 2)%nat \/
  (forall f, nth_error (split_comma line) 0 = Some f -> parse_u64 f = None) ->
  process_line line = Err (InvalidImportLine line).
Proof.
  intros H. unfold process_line.
  destruct (nth_error (split_comma line) 0) as [f0|] eqn:H0; [|reflexivity].
  destruct (parse_u64 f0) eqn:Hu; [|reflexivity].
  destruct H as [H|H]; [|rewrite (H f0 eq_refl) in Hu; discriminate].
  assert (nth_error (split_comma line) 1 = None) as -> by
    (apply nth_error_None; lia).
  reflexivity.
Qed.

Lemma short_or_bad_id_rejected_witness :
  process_line "42" = Err (InvalidImportLine "42") /\
  process_line "-1,a,0" = Err (InvalidImportLine "-1,a,0").
Proof.
  split; apply short_or_bad_id_rejected.
  - left. simpl. lia.
  - right. simpl. intros f Hf. inversion Hf. reflexivity.
Defined.

(** ** Lines without timestamps *)

(** C8: a line with exactly two fields and a valid identifier is accepted:
    [insert_pair] is called once, for the pair with an empty date set (and
    when that call succeeds the pair is merged with no dates). *)
Theorem two_field_line_empty_dates (line f0 f1 : string) (user_id : Z) :
  split_comma line = [f0; f1] -> parse_u64 f0 = Some user_id ->
  process_line line = Ok (user_id, f1, []) /\
  forall fault db,
    import_multi fault [Line line] db = insert_pair_call (fault O) db user_id f1 [].
Proof.
  intros Hs Hu.
  assert (H : process_line line = Ok (user_id, f1, [])).
  { unfold process_line. rewrite Hs. simpl. rewrite Hu. reflexivity. }
  split; [exact H|]. intros fault db. simpl. rewrite H.
  destruct (fault O); reflexivity.
Qed.

Lemma two_field_line_empty_dates_witness :
  process_line "42,alice" = Ok (42, "alice", []).
Proof.
  apply (two_field_line_empty_dates "42,alice" "42" "alice" 42);
    reflexivity.
Defined.

(** ** Lookup output *)

(** C9: for a store built by merge-inserts, the lines printed by
    [LookupId] are the stored names with their date sets, sorted by name
    (byte-wise lexicographic order), one line per name, each line being
    [name: d1, d2, ...] with the dates strictly ascending. *)
Theorem lookup_output_sorted (db : store) (id : Z) :
  reachable db ->
  let rows := sort_by_name (lookup_by_user_id db id) in
  Permutation rows (lookup_by_user_id db id) /\
  Sorted name_le rows /\
  Forall (fun row => StronglySorted Z.lt (snd row)) rows /\
  lookup_id db id =
    map (fun row => (fst row ++ ": " ++
                     join ", " (map date_to_string (snd row)))%string) rows.
Proof.
  intros Hr. cbv zeta. split; [apply sort_by_name_perm|].
  split; [apply sort_by_name_sorted|]. split; [|reflexivity].
  apply (Permutation_Forall (Permutation_sym (sort_by_name_perm _))).
  apply lookup_wf, reachable_wf, Hr.
Qed.

Definition lookup_example_db : store :=
  insert_pair (insert_pair (insert_pair [] 42 "bob" [5; 3])
                           7 "zed" [1]) 42 "alice" [2; 0; 2].

Lemma lookup_output_sorted_witness :
  lookup_id lookup_example_db 42 =
    ["alice: 1970-01-01, 1970-01-03"; "bob: 1970-01-04, 1970-01-06"] /\
  Sorted name_le (sort_by_name (lookup_by_user_id lookup_example_db 42)).
Proof.
  split; [vm_compute; reflexivity|].
  apply (lookup_output_sorted lookup_example_db 42).
  unfold lookup_example_db. repeat constructor.
Defined.

(** ** Timestamp parsing *)

(** C10 (counterexample): [i64::MAX] and [i64::MIN] are [i64] timestamps,
    yet a line carrying either is not accepted: its day lies outside
    chrono's [NaiveDate] range. *)
Lemma i64_stamp_out_of_date_range :
  parse_i64 "9223372036854775807" = Some i64_max /\
  (forall r, process_line "1,a,9223372036854775807" <> Ok r) /\
  parse_i64 "-9223372036854775808" = Some i64_min /\
  (forall r, process_line "1,a,-9223372036854775808" <> Ok r).
Proof.
  vm_compute. split; [reflexivity|]. split; [discriminate|].
  split; [reflexivity|discriminate].
Qed.

(** C10 (amended): the timestamp fields are parsed as [i64], in order.  A
    field that is not [i64] syntax or is out of the [i64] range makes the
    line fail with [InvalidImportLine] when every field before it
    converts; an [i64] field with no [NaiveDate] panics [Utc.timestamp]
    before any later field is read.  Every timestamp within 2^42 seconds
    of the epoch, negative ones included, converts, to the day
    [ts / 86400] (before 1970-01-01 when negative).  The identifier is
    parsed as a [u64], so a field starting with ['-'] is not an
    identifier. *)
Theorem stamp_parsed_as_i64 (line f0 f1 : string) (stamps : list string)
    (user_id : Z) :
  split_comma line = f0 :: f1 :: stamps -> parse_u64 f0 = Some user_id ->
  (forall before f after, stamps = before ++ f :: after ->
     Forall good_stamp before -> parse_i64 f = None ->
     process_line line = Err (InvalidImportLine line)) /\
  (forall before f after ts, stamps = before ++ f :: after ->
     Forall good_stamp before -> parse_i64 f = Some ts ->
     timestamp_date ts = None -> process_line line = Panic) /\
  (Forall good_stamp stamps ->
     exists dates, process_line line = Ok (user_id, f1, dates) /\
       forall d, In d dates <->
         exists f ts, In f stamps /\ parse_i64 f = Some ts /\ d = ts / 86400) /\
  (forall f ts, parse_i64 f = Some ts -> i64_min <= ts <= i64_max) /\
  (forall f ts, parse_i64 f = Some ts -> - 2 ^ 42 <= ts <= 2 ^ 42 ->
     good_stamp f /\ timestamp_date ts = Some (ts / 86400)) /\
  (forall s, parse_u64 (String "-" s) = None) /\
  (timestamp_date (-86400) = Some (-1) /\
   date_to_string (-1) = "1969-12-31" /\
   parse_i64 "9223372036854775808" = None).
Proof.
  intros Hs Hu. rewrite (process_line_split line f0 f1 stamps user_id Hs Hu).
  split; [|split; [|split; [|split; [|split; [|split]]]]].
  - intros before f after -> Hb Hf.
    rewrite (collect_dates_first_bad line before after f [] Hb Hf).
    reflexivity.
  - intros before f after ts -> Hb Hf Ht.
    rewrite (collect_dates_first_panic line before after f ts [] Hb Hf Ht).
    reflexivity.
  - intros Hg. destruct (collect_dates_good stamps [] Hg) as [ds Hds].
    rewrite Hds. exists (dedup (sort_dates ds)). split; [reflexivity|].
    intros d. fold (canon ds).
    rewrite canon_In, (collect_dates_In _ _ _ _ (Hds line) d). simpl.
    split.
    + intros [[]|[f [ts [Hf [Hp Ht]]]]]. exists f, ts.
      repeat split; try assumption.
      apply day_of_bounds, timestamp_date_day, Ht.
    + intros [f [ts [Hf [Hp ->]]]]. right. exists f, ts.
      repeat split; try assumption.
      exact (collect_dates_defined _ _ _ _ (Hds line) f ts Hf Hp).
  - intros f ts Hp. exact (parse_int_range _ _ _ _ _ Hp).
  - intros f ts Hp Hb. pose proof (timestamp_date_small ts Hb) as Ht.
    split; [exists ts, (ts / 86400); split; assumption|exact Ht].
  - intros s0. reflexivity.
  - vm_compute. repeat split.
Qed.

Lemma stamp_parsed_as_i64_witness :
  process_line "1,a,0,x" = Err (InvalidImportLine "1,a,0,x") /\
  exists dates, process_line "1,a,-86400,86399" = Ok (1, "a", dates).
Proof.
  assert (Hs1 : split_comma "1,a,0,x" = "1" :: "a" :: ["0"; "x"])
    by reflexivity.
  assert (Hs2 : split_comma "1,a,-86400,86399" = "1" :: "a" :: ["-86400"; "86399"])
    by reflexivity.
  split.
  - apply (proj1 (stamp_parsed_as_i64 "1,a,0,x" "1" "a" ["0"; "x"] 1 Hs1
                    eq_refl) ["0"] "x" []); [reflexivity| |reflexivity].
    constructor; [|constructor]. exists 0, 0. split; reflexivity.
  - destruct (proj1 (proj2 (proj2 (stamp_parsed_as_i64 "1,a,-86400,86399"
                 "1" "a" ["-86400"; "86399"] 1 Hs2 eq_refl))))
      as [dates [Hd _]].
    + constructor; [|constructor; [|constructor]].
      * exists (-86400), (-1). split; reflexivity.
      * exists 86399, 0. split; reflexivity.
    + exists dates. exact Hd.
Defined.

(** * Further properties of [manage] *)

(** ** Splitting a line *)

Lemma join_comma_cons_char (c : ascii) (f : string) (fs : list string) :
  join "," (String c f :: fs) = String c (join "," (f :: fs)).
Proof. destruct fs; reflexivity. Qed.

(** Splitting on [','] loses nothing: joining the fields with [','] gives
    the line back, no field contains a comma, and there is one field more
    than there are commas. *)
Theorem split_comma_roundtrip (line : string) :
  join "," (split_comma line) = line /\
  Forall (fun f => forall c, In c (list_ascii_of_string f) -> c <> comma)
         (split_comma line) /\
  List.length (split_comma line) =
    S (List.length (filter (fun c => Ascii.eqb c comma)
                           (list_ascii_of_string line))).
Proof.
  induction line as [|c s [IHj [IHf IHl]]]; simpl.
  - split; [reflexivity|]. split; [|reflexivity].
    constructor; [simpl; tauto|constructor].
  - pose proof (split_comma_nonempty s) as Hne.
    destruct (Ascii.eqb c comma) eqn:E.
    + apply Ascii.eqb_eq in E. subst c.
      destruct (split_comma s) as [|f fs]; [congruence|].
      split.
      { change (join "," ("" :: f :: fs)) with
          ("" ++ "," ++ join "," (f :: fs))%string.
        rewrite IHj. reflexivity. }
      split; [constructor; [simpl; tauto|exact IHf]|].
      simpl in *. rewrite IHl. reflexivity.
    + destruct (split_comma s) as [|f fs]; [congruence|].
      rewrite join_comma_cons_char, IHj. split; [reflexivity|].
      inversion IHf as [|? ? Hf Hfs]; subst.
      split; [|simpl in *; exact IHl].
      constructor; [|exact Hfs].
      intros c' [<-|Hc']; [|now apply Hf].
      intros ->. rewrite Ascii.eqb_refl in E. discriminate.
Qed.

(** ** Processing one line *)

Lemma collect_dates_length (line : string) (parts : list string)
    (acc ds : list Z) :
  collect_dates line parts acc = Ok ds ->
  List.length ds = (List.length acc + List.length parts)%nat.
Proof.
  revert acc. induction parts as [|f parts IH]; intros acc H; simpl in H.
  - inversion H. simpl. lia.
  - destruct (parse_i64 f); [|discriminate].
    destruct (timestamp_date z); [|discriminate].
    rewrite (IH _ H), length_app. simpl. lia.
Qed.

Lemma dedup_length (l : list Z) : (List.length (dedup l) <= List.length l)%nat.
Proof.
  induction l as [|x l IH]; simpl; [lia|].
  destruct l as [|y l']; simpl in *; [lia|].
  destruct (x =? y); simpl; lia.
Qed.

(** The arguments of the [insert_pair] call for a line: the identifier is a
    [u64], the name is a field of the line and so contains no comma, and
    there are at most as many dates as timestamp fields. *)
Theorem process_line_fields (line : string) (user_id : Z) (name : string)
    (dates : list Z) :
  process_line line = Ok (user_id, name, dates) ->
  0 <= user_id <= u64_max /\
  (forall c, In c (list_ascii_of_string name) -> c <> comma) /\
  (List.length dates <= List.length (skipn 2 (split_comma line)))%nat.
Proof.
  unfold process_line.
  destruct (nth_error (split_comma line) 0) as [f0|]; [|discriminate].
  destruct (parse_u64 f0) as [u|] eqn:Hu; [|discriminate].
  destruct (nth_error (split_comma line) 1) as [n|] eqn:H1; [|discriminate].
  destruct (collect_dates line (skipn 2 (split_comma line)) []) as [ds| |]
    eqn:Hc; intros H; inversion H; subst.
  split; [exact (parse_int_range _ _ _ _ _ Hu)|]. split.
  - destruct (split_comma_roundtrip line) as [_ [Hf _]].
    rewrite Forall_forall in Hf. apply Hf. eapply nth_error_In. exact H1.
  - pose proof (collect_dates_length _ _ _ _ Hc) as Hl. change (List.length (@nil Z)) with 0%nat in Hl.
    pose proof (dedup_length (sort_dates ds)).
    rewrite (Permutation_length (sort_dates_perm ds)) in H0. lia.
Qed.

Lemma process_line_fields_witness :
  0 <= 42 <= u64_max /\
  (forall c, In c (list_ascii_of_string "alice") -> c <> comma) /\
  (List.length [0; 1] <=
     List.length (skipn 2 (split_comma "42,alice,0,86400,0")))%nat.
Proof.
  apply (process_line_fields "42,alice,0,86400,0" 42 "alice" [0; 1]).
  vm_compute. reflexivity.
Defined.

Lemma process_line_err (line : string) (e : Error) :
  process_line line = Err e -> e = InvalidImportLine line.
Proof.
  unfold process_line.
  destruct (match nth_error (split_comma line) 0 with
            | Some value => parse_u64 value | None => None end);
    [|congruence].
  destruct (nth_error (split_comma line) 1); [|congruence].
  destruct (collect_dates line (skipn 2 (split_comma line)) []) eqn:Hc;
    try discriminate.
  intros H. inversion H; subst. exact (collect_dates_err _ _ _ _ Hc).
Qed.

Lemma collect_dates_panic (line : string) (parts : list string) (acc : list Z) :
  collect_dates line parts acc = Panic ->
  exists f ts, In f parts /\ parse_i64 f = Some ts /\ timestamp_date ts = None.
Proof.
  revert acc. induction parts as [|f parts IH]; intros acc H; simpl in H;
    [discriminate|].
  destruct (parse_i64 f) as [ts|] eqn:Hf; [|discriminate].
  destruct (timestamp_date ts) eqn:Ht.
  - destruct (IH _ H) as [g [ts' [Hg R]]]. exists g, ts'. simpl. auto.
  - exists f, ts. simpl. auto.
Qed.

(** How the multi-date import can fail: an error is [InvalidImportLine]
    carrying one of the input lines verbatim, the I/O error of an input
    line that could not be read, or the store error of one of the store
    calls; a panic always comes from a timestamp field of an input line
    that is an [i64] with no [NaiveDate]. *)
Theorem import_multi_failures (fault : faults) (lines : list read_line)
    (db db' : store) :
  (forall e, import_multi fault lines db = (db', Err e) ->
     (exists line, In (Line line) lines /\ e = InvalidImportLine line) \/
     (In ReadFailure lines /\ e = Io) \/
     (exists i detail, (i < List.length lines)%nat /\ fault i = Some detail /\
                       e = App detail)) /\
  (import_multi fault lines db = (db', Panic) ->
     exists line f ts, In (Line line) lines /\ In f (skipn 2 (split_comma line)) /\
                       parse_i64 f = Some ts /\ timestamp_date ts = None).
Proof.
  revert fault db. induction lines as [|[l|] lines IH]; intros fault db.
  - split; [intros e H|intros H]; discriminate.
  - simpl. destruct (process_line l) as [[[u n] ds]|e'|] eqn:Hl.
    + destruct (fault O) as [detail|] eqn:F; simpl.
      * split; [|discriminate]. intros e H. inversion H; subst.
        right; right. exists O, detail. repeat split; auto. lia.
      * destruct (IH (shift fault 1) (insert_pair db u n ds)) as [IH1 IH2].
        split.
        -- intros e H.
           destruct (IH1 e H) as [[x [Hx ->]]|[[Hx ->]|[i [d [Hi [Hf ->]]]]]].
           ++ left. eauto.
           ++ right; left. auto.
           ++ right; right. exists (S i), d. repeat split; auto. lia.
        -- intros H. destruct (IH2 H) as [x [f [ts [Hx R]]]].
           exists x, f, ts. auto.
    + split; [|discriminate]. intros e H. inversion H; subst.
      left. exists l. split; [now left|]. exact (process_line_err _ _ Hl).
    + split; [discriminate|]. intros _.
      unfold process_line in Hl.
      destruct (match nth_error (split_comma l) 0 with
                | Some value => parse_u64 value | None => None end);
        [|discriminate].
      destruct (nth_error (split_comma l) 1); [|discriminate].
      destruct (collect_dates l (skipn 2 (split_comma l)) []) eqn:Hc;
        try discriminate.
      destruct (collect_dates_panic _ _ _ Hc) as [f [ts R]].
      exists l, f, ts. simpl. auto.
  - simpl. split; [|discriminate]. intros e H. inversion H; subst.
    right; left. split; [now left|reflexivity].
Qed.

Lemma import_multi_failures_example :
  import_multi (fun i => if Nat.eqb i 1 then Some "disk" else None)
    [Line "1,a,0"; Line "2,b,0"; Line "x"] [] =
    ([((1, "a"), [0])], Err (App "disk")) /\
  import_multi (fun _ => None) [Line "1,a,0"; ReadFailure; Line "x"] [] =
    ([((1, "a"), [0])], Err Io).
Proof. split; vm_compute; reflexivity. Qed.

(** Importing in two parts: importing the concatenation is importing the
    first part and, when it succeeds, the second part into the store it
    produced, the second part meeting the store calls that follow those of
    the first; a first part of well-formed lines whose store calls all
    succeed always succeeds. *)
Theorem import_multi_compose (fault : faults) (first second : list read_line)
    (db : store) :
  import_multi fault (first ++ second) db =
    match import_multi fault first db with
    | (db1, Ok _) => import_multi (shift fault (List.length first)) second db1
    | other => other
    end /\
  (Forall (fun l => exists line r, l = Line line /\ process_line line = Ok r)
     first ->
   (forall i, (i < List.length first)%nat -> fault i = None) ->
   snd (import_multi fault first db) = Ok tt).
Proof.
  split.
  - revert fault db. induction first as [|[l|] first IH]; intros fault db;
      [reflexivity| |reflexivity].
    simpl. destruct (process_line l) as [[[u n] ds]|e|];
      [|reflexivity|reflexivity].
    destruct (fault O); [reflexivity|]. simpl. apply IH.
  - intros Hok. revert fault db.
    induction Hok as [|x first [l [[[u n] ds] [-> Hl]]] Hok IH];
      intros fault db Hf; [reflexivity|].
    simpl. rewrite Hl, (Hf O) by (simpl; lia). simpl. apply IH.
    intros i Hi. unfold shift. apply Hf. simpl. lia.
Qed.

Lemma import_multi_compose_witness :
  snd (import_multi (fun _ => None) [Line "1,a,0"; Line "2,b"] []) = Ok tt.
Proof.
  apply (proj2 (import_multi_compose (fun _ => None)
                  [Line "1,a,0"; Line "2,b"] [Line "x"] [])).
  - repeat constructor; do 2 eexists; split; reflexivity.
  - reflexivity.
Defined.

(** ** Dates of a line *)

Definition stamp_in (line : string) (ts : Z) : Prop :=
  exists f, In f (skipn 2 (split_comma line)) /\ parse_i64 f = Some ts.

Lemma process_line_dates (line : string) (user_id : Z) (name : string)
    (dates : list Z) :
  process_line line = Ok (user_id, name, dates) ->
  StronglySorted Z.lt dates /\
  forall d, In d dates <-> exists ts, stamp_in line ts /\ d = ts / 86400.
Proof.
  unfold process_line.
  destruct (match nth_error (split_comma line) 0 with
            | Some value => parse_u64 value | None => None end); [|discriminate].
  destruct (nth_error (split_comma line) 1); [|discriminate].
  destruct (collect_dates line (skipn 2 (split_comma line)) []) as [ds| |]
    eqn:Hc; intros H; inversion H; subst.
  split; [apply canon_strict|]. intros d.
  fold (canon ds). rewrite canon_In, (collect_dates_In _ _ _ _ Hc d). simpl.
  split.
  - intros [[]|[f [ts [Hf [Hp Ht]]]]]. exists ts. split; [exists f; auto|].
    apply day_of_bounds, timestamp_date_day, Ht.
  - intros [ts [[f [Hf Hp]] ->]]. right. exists f, ts. repeat split; auto.
    exact (collect_dates_defined _ _ _ _ Hc f ts Hf Hp).
Qed.

(** The dates of a line depend only on the set of its timestamp values:
    two accepted lines whose timestamp fields have the same values, in any
    order and with any repetition, give the same date list. *)
Theorem line_dates_order_independent (l1 l2 : string) (u1 u2 : Z)
    (n1 n2 : string) (d1 d2 : list Z) :
  process_line l1 = Ok (u1, n1, d1) -> process_line l2 = Ok (u2, n2, d2) ->
  (forall ts, stamp_in l1 ts <-> stamp_in l2 ts) ->
  d1 = d2.
Proof.
  intros H1 H2 Hts.
  destruct (process_line_dates _ _ _ _ H1) as [S1 I1].
  destruct (process_line_dates _ _ _ _ H2) as [S2 I2].
  apply strict_ext; [exact S1|exact S2|]. intros d.
  rewrite I1, I2. split; intros [ts [Hin ->]]; exists ts; split; auto;
    apply Hts; exact Hin.
Qed.

Lemma line_dates_order_independent_witness :
  process_line "7,a,172800,0,0" = Ok (7, "a", [0; 2]) /\
  process_line "7,b,0,172800" = Ok (7, "b", [0; 2]) /\ [0; 2] = [0; 2].
Proof.
  split; [reflexivity|]. split; [reflexivity|].
  apply (line_dates_order_independent "7,a,172800,0,0" "7,b,0,172800"
           7 7 "a" "b"); try reflexivity.
  intros ts. unfold stamp_in. simpl. split.
  - intros [f [Hf Hp]].
    destruct Hf as [<-|[<-|[<-|[]]]]; inversion Hp; subst;
      [exists "172800"|exists "0"|exists "0"]; simpl; auto.
  - intros [f [Hf Hp]].
    destruct Hf as [<-|[<-|[]]]; inversion Hp; subst;
      [exists "0"|exists "172800"]; simpl; auto.
Defined.

(** Converting timestamps is monotone: a later timestamp never gets an
    earlier date. *)
Theorem timestamp_date_monotone (t1 t2 d1 d2 : Z) :
  t1 <= t2 -> timestamp_date t1 = Some d1 -> timestamp_date t2 = Some d2 ->
  d1 <= d2.
Proof.
  intros Ht H1 H2.
  apply timestamp_date_day in H1. apply timestamp_date_day in H2. lia.
Qed.

Lemma timestamp_date_monotone_witness :
  0 <= 86400 /\ timestamp_date 0 = Some 0 /\ timestamp_date 86400 = Some 1 /\
  0 <= 1.
Proof.
  split; [lia|]. split; [reflexivity|]. split; [reflexivity|].
  apply (timestamp_date_monotone 0 86400); [lia|reflexivity|reflexivity].
Defined.

(** ** Timestamps that convert without panicking *)

(** The multi-date import never panics on an input whose timestamp fields
    all lie within 2^42 seconds (about 139,000 years) of the epoch,
    whatever the store does: each such timestamp has the date
    [ts / 86400]. *)
Theorem import_multi_no_panic (fault : faults) (lines : list read_line)
    (db : store) :
  (forall line f ts, In (Line line) lines -> In f (skipn 2 (split_comma line)) ->
     parse_i64 f = Some ts -> - 2 ^ 42 <= ts <= 2 ^ 42) ->
  snd (import_multi fault lines db) <> Panic /\
  (forall line f ts, In (Line line) lines -> In f (skipn 2 (split_comma line)) ->
     parse_i64 f = Some ts -> timestamp_date ts = Some (ts / 86400)).
Proof.
  intros Hr. split.
  - revert fault db. induction lines as [|[l|] lines IH]; intros fault db;
      simpl; [discriminate| |discriminate].
    destruct (process_line l) as [[[u n] ds]|e|] eqn:Hl.
    + destruct (fault O); simpl; [discriminate|].
      apply IH. intros line f ts Hin. apply Hr. now right.
    + discriminate.
    + exfalso. unfold process_line in Hl.
      destruct (match nth_error (split_comma l) 0 with
                | Some value => parse_u64 value | None => None end);
        [|discriminate].
      destruct (nth_error (split_comma l) 1); [|discriminate].
      destruct (collect_dates l (skipn 2 (split_comma l)) []) eqn:Hc;
        try discriminate.
      destruct (collect_dates_panic _ _ _ Hc) as [f [ts [Hf [Hp Ht]]]].
      rewrite timestamp_date_small in Ht; [discriminate|].
      apply (Hr l f ts); auto. now left.
  - intros line f ts Hin Hf Hp. apply timestamp_date_small.
    exact (Hr line f ts Hin Hf Hp).
Qed.

Lemma import_multi_no_panic_witness :
  snd (import_multi (fun _ => None) [Line "1,a,-1,4398046511104"] []) <> Panic.
Proof.
  apply (import_multi_no_panic (fun _ => None) [Line "1,a,-1,4398046511104"] []).
  intros line f ts [H|[]] Hf Hp. inversion H; subst. simpl in Hf.
  destruct Hf as [<-|[<-|[]]]; inversion Hp; subst; lia.
Defined.

(** ** Decimal numbers: parsing and printing *)

Lemma digit_char_val (k : Z) :
  0 <= k < 10 -> digit_val (ascii_of_nat (48 + Z.to_nat k)) = Some k.
Proof.
  intros Hk.
  assert (k = 0 \/ k = 1 \/ k = 2 \/ k = 3 \/ k = 4 \/ k = 5 \/ k = 6 \/
          k = 7 \/ k = 8 \/ k = 9) by lia.
  repeat (destruct H as [->|H]; [reflexivity|]). subst. reflexivity.
Qed.

Lemma digits_rev_parse (fuel : nat) (n : Z) (acc : string) :
  0 <= n < 10 ^ Z.of_nat fuel ->
  parse_digits (digits_rev fuel n acc) 0 = parse_digits acc n.
Proof.
  revert n acc. induction fuel as [|f IH]; intros n acc Hn.
  - change (10 ^ Z.of_nat 0) with 1 in Hn. assert (n = 0) as -> by lia.
    reflexivity.
  - cbn [digits_rev]. pose proof (Z.mod_pos_bound n 10 ltac:(lia)) as Hm.
    destruct (n <? 10) eqn:E.
    + apply Z.ltb_lt in E. cbn [parse_digits]. rewrite digit_char_val by lia.
      rewrite Z.mod_small by lia. reflexivity.
    + apply Z.ltb_ge in E. rewrite IH.
      * cbn [parse_digits]. rewrite digit_char_val by lia.
        f_equal. pose proof (Z.div_mod n 10 ltac:(lia)). lia.
      * rewrite Nat2Z.inj_succ, Z.pow_succ_r in Hn by lia.
        split; [apply Z.div_pos; lia|].
        apply Z.div_lt_upper_bound; lia.
Qed.

Lemma digits_rev_head (fuel : nat) (n : Z) (acc : string) :
  0 <= n ->
  exists c rest k, digits_rev (S fuel) n acc = String c rest /\
                   digit_val c = Some k.
Proof.
  revert n acc. induction fuel as [|f IH]; intros n acc Hn.
  - cbn [digits_rev]. pose proof (Z.mod_pos_bound n 10 ltac:(lia)).
    destruct (n <? 10); do 3 eexists; split; try reflexivity;
      apply digit_char_val; lia.
  - cbn [digits_rev]. destruct (n <? 10).
    + pose proof (Z.mod_pos_bound n 10 ltac:(lia)).
      do 3 eexists; split; [reflexivity|]. apply digit_char_val; lia.
    + apply IH. apply Z.div_pos; lia.
Qed.

Lemma dec_parse_digits (n : Z) :
  0 <= n < 10 ^ 64 ->
  exists c rest k, dec n = String c rest /\ digit_val c = Some k /\
                   parse_digits (dec n) 0 = Some n.
Proof.
  intros Hn. destruct (digits_rev_head 63 n "" ltac:(lia)) as [c [rest [k [E D]]]].
  exists c, rest, k. unfold dec. split; [exact E|]. split; [exact D|].
  rewrite digits_rev_parse; [reflexivity|]. exact Hn.
Qed.

Lemma parse_int_unsigned_digits (signed : bool) (lo hi : Z) (s : string)
    (n : Z) :
  (exists c rest k, s = String c rest /\ digit_val c = Some k) ->
  parse_digits s 0 = Some n ->
  parse_int signed lo hi s = if (lo <=? n) && (n <=? hi) then Some n else None.
Proof.
  intros [c [rest [k [-> D]]]] P. unfold parse_int.
  assert (Hp : Ascii.eqb c "+" = false).
  { destruct (Ascii.eqb c "+") eqn:X; auto.
    apply Ascii.eqb_eq in X. subst. discriminate. }
  assert (Hm : Ascii.eqb c "-" = false).
  { destruct (Ascii.eqb c "-") eqn:X; auto.
    apply Ascii.eqb_eq in X. subst. discriminate. }
  rewrite Hp, Hm, andb_false_r. rewrite P. reflexivity.
Qed.

Lemma parse_int_sign (signed : bool) (lo hi : Z) (sign : ascii) (s : string)
    (n : Z) :
  s <> EmptyString -> parse_digits s 0 = Some n ->
  (sign = "+"%char ->
     parse_int signed lo hi (String sign s) =
       if (lo <=? n) && (n <=? hi) then Some n else None) /\
  (sign = "-"%char -> signed = true ->
     parse_int signed lo hi (String sign s) =
       if (lo <=? - n) && (- n <=? hi) then Some (- n) else None) /\
  (sign = "-"%char -> signed = false -> parse_int signed lo hi (String sign s) = None).
Proof.
  intros Hne P. unfold parse_int.
  split; [|split]; intros -> ; [|intros ->|intros ->]; simpl;
    (destruct s as [|c' s']; [congruence|]); rewrite ?P; reflexivity.
Qed.

(** Printing a [u64] in decimal and parsing it back gives the number, also
    with a leading ['+'], as a [u64] and, when in range, as an [i64]; [u64]
    parsing refuses a leading ['-'], while for [i64] a ['-'] before the
    digits of [n] gives [-n] when in range. *)
Theorem decimal_roundtrip (n : Z) :
  0 <= n <= u64_max ->
  parse_u64 (dec n) = Some n /\
  parse_u64 ("+" ++ dec n) = Some n /\
  parse_u64 ("-" ++ dec n) = None /\
  (n <= 2 ^ 63 -> parse_i64 ("-" ++ dec n) = Some (- n)) /\
  (n <= i64_max -> parse_i64 (dec n) = Some n) /\
  (n <= i64_max -> parse_i64 ("+" ++ dec n) = Some n).
Proof.
  intros Hn. unfold u64_max in Hn.
  destruct (dec_parse_digits n ltac:(lia)) as [c [rest [k [E [D P]]]]].
  assert (Hh : exists c rest k, dec n = String c rest /\ digit_val c = Some k)
    by eauto.
  assert (Hne : dec n <> EmptyString) by (rewrite E; discriminate).
  unfold parse_u64, parse_i64.
  change ("+" ++ dec n)%string with (String "+" (dec n)).
  change ("-" ++ dec n)%string with (String "-" (dec n)).
  rewrite !(parse_int_unsigned_digits _ _ _ _ _ Hh P).
  destruct (parse_int_sign false 0 u64_max "+" (dec n) n Hne P) as [Hplus _].
  destruct (parse_int_sign false 0 u64_max "-" (dec n) n Hne P) as [_ [_ Hneg]].
  destruct (parse_int_sign true i64_min i64_max "-" (dec n) n Hne P)
    as [_ [Hneg' _]].
  destruct (parse_int_sign true i64_min i64_max "+" (dec n) n Hne P)
    as [Hplus' _].
  rewrite Hplus, Hneg, Hneg', Hplus' by reflexivity.
  unfold u64_max, i64_min, i64_max.
  assert (B : forall a b : Z, a <= n <= b -> (a <=? n) && (n <=? b) = true).
  { intros a b H. apply andb_true_iff. split; apply Z.leb_le; lia. }
  assert (B' : forall a b : Z, a <= - n <= b ->
                 (a <=? - n) && (- n <=? b) = true).
  { intros a b H. apply andb_true_iff. split; apply Z.leb_le; lia. }
  rewrite B by lia. repeat split; try reflexivity; intros Hb.
  - rewrite B' by lia. reflexivity.
  - rewrite B by lia. reflexivity.
  - rewrite B by lia. reflexivity.
Qed.

Lemma decimal_roundtrip_witness :
  parse_u64 (dec 42) = Some 42 /\ parse_u64 ("+" ++ dec 42) = Some 42 /\
  parse_u64 ("-" ++ dec 42) = None /\
  (42 <= 2 ^ 63 -> parse_i64 ("-" ++ dec 42) = Some (- 42)) /\
  (42 <= i64_max -> parse_i64 (dec 42) = Some 42) /\
  (42 <= i64_max -> parse_i64 ("+" ++ dec 42) = Some 42).
Proof.
  apply (decimal_roundtrip 42). unfold u64_max. lia.
Defined.

(** ** Log level *)

(** [select_log_level_filter] maps a verbosity [v >= 0] to the level of
    rank [min v 5] ([Off] for 0, [Trace] from 5 on), so more [-v] flags
    never make logging quieter; a negative verbosity gives [Trace]. *)
Theorem log_level_rank (v : Z) :
  level_rank (select_log_level_filter v) = (if v <? 0 then 5 else Z.min v 5) /\
  (forall w, 0 <= v <= w ->
     level_rank (select_log_level_filter v) <=
     level_rank (select_log_level_filter w)).
Proof.
  assert (R : forall x, level_rank (select_log_level_filter x) =
                        if x <? 0 then 5 else Z.min x 5).
  { intros x. unfold select_log_level_filter.
    destruct (x =? 0) eqn:E0; [apply Z.eqb_eq in E0; subst; reflexivity|].
    destruct (x =? 1) eqn:E1; [apply Z.eqb_eq in E1; subst; reflexivity|].
    destruct (x =? 2) eqn:E2; [apply Z.eqb_eq in E2; subst; reflexivity|].
    destruct (x =? 3) eqn:E3; [apply Z.eqb_eq in E3; subst; reflexivity|].
    destruct (x =? 4) eqn:E4; [apply Z.eqb_eq in E4; subst; reflexivity|].
    apply Z.eqb_neq in E0, E1, E2, E3, E4. simpl.
    destruct (x <? 0) eqn:N; [reflexivity|]. apply Z.ltb_ge in N. lia. }
  split; [apply R|]. intros w Hw. rewrite !R.
  destruct (v <? 0) eqn:N1; [apply Z.ltb_lt in N1; lia|].
  destruct (w <? 0) eqn:N2; [apply Z.ltb_lt in N2; lia|]. lia.
Qed.

(** ** Lookup output and the order of the lookup map *)

Lemma string_leb_trans (a b c : string) :
  String.leb a b = true -> String.leb b c = true -> String.leb a c = true.
Proof.
  unfold String.leb. revert b c.
  induction a as [|x a IH]; intros [|y b] [|z c]; simpl; auto; try discriminate.
  unfold Ascii.compare.
  destruct (N.compare_spec (N_of_ascii x) (N_of_ascii y)) as [Hxy|Hxy|Hxy];
  destruct (N.compare_spec (N_of_ascii y) (N_of_ascii z)) as [Hyz|Hyz|Hyz];
  destruct (N.compare_spec (N_of_ascii x) (N_of_ascii z)) as [Hxz|Hxz|Hxz];
    intros H1 H2; try discriminate; try lia; auto.
  apply (IH b c H1 H2).
Qed.

Lemma sorted_names_unique (l1 l2 : list (string * list Z)) :
  StronglySorted name_le l1 -> StronglySorted name_le l2 ->
  NoDup (map fst l1) -> Permutation l1 l2 -> l1 = l2.
Proof.
  revert l2. induction l1 as [|x l1 IH]; intros l2 S1 S2 N P.
  - symmetry. now apply Permutation_nil.
  - destruct l2 as [|y l2]; [apply Permutation_sym, Permutation_nil in P;
                             discriminate|].
    inversion S1 as [|? ? S1' F1]; subst.
    inversion S2 as [|? ? S2' F2]; subst.
    inversion N as [|? ? Nx N']; subst.
    assert (x = y) as <-.
    { destruct (Permutation_in x P (or_introl eq_refl)) as [|Hx]; [congruence|].
      destruct (Permutation_in y (Permutation_sym P) (or_introl eq_refl))
        as [|Hy]; [congruence|].
      rewrite Forall_forall in F1, F2.
      pose proof (F1 y Hy) as Lxy. pose proof (F2 x Hx) as Lyx.
      unfold name_le in Lxy, Lyx.
      pose proof (String.leb_antisym _ _ Lxy Lyx) as E.
      exfalso. apply Nx. rewrite E. apply in_map. exact Hy. }
    f_equal. apply IH; auto. eapply Permutation_cons_inv. exact P.
Qed.

(** The output of [LookupId] does not depend on the order in which the
    lookup map is iterated: any two orderings of the same entries, with
    distinct names, print the same lines. *)
Theorem lookup_output_order_independent (r1 r2 : list (string * list Z)) :
  Permutation r1 r2 -> NoDup (map fst r1) ->
  map render_row (sort_by_name r1) = map render_row (sort_by_name r2).
Proof.
  intros P N. f_equal. apply sorted_names_unique.
  - apply Sorted_StronglySorted; [|apply sort_by_name_sorted].
    intros a b c. unfold name_le. apply string_leb_trans.
  - apply Sorted_StronglySorted; [|apply sort_by_name_sorted].
    intros a b c. unfold name_le. apply string_leb_trans.
  - apply (Permutation_NoDup (Permutation_map fst
             (Permutation_sym (sort_by_name_perm r1)))). exact N.
  - rewrite sort_by_name_perm, P. symmetry. apply sort_by_name_perm.
Qed.

Lemma lookup_output_order_independent_witness :
  map render_row (sort_by_name [("bob", [1]); ("alice", [0])]) =
  map render_row (sort_by_name [("alice", [0]); ("bob", [1])]).
Proof.
  apply lookup_output_order_independent.
  - apply perm_swap.
  - repeat constructor; simpl; intuition discriminate.
Defined.
